(** * Route construction engine of the SIAE tax-inspector hackathon project

    Shallow embedding of [inference_motor.ipynb]: the greedy route builder
    [Traveler._high_value_strategy], the multi-day loop that fills [paths],
    and the flattening of [paths] into [flat_data].  The Jurisdiction Index,
    the route validator and the Geo-Distance Model live in the imported
    module [tax_inspector_competition], which is not part of the sources;
    they are modelled from the spec and marked as such. *)

From Stdlib Require Import ZArith QArith Sorting.Sorted.
From stdpp Require Import base list gmap strings pretty.
From Stdlib Require Reals Lra.
From Stdlib Require Import Ascii.

Open Scope Z_scope.

(** ** Data model *)

(** [POI(id, lat, lon, poi_type, fee_value, jurisdiction)]: Python ints are
    [Z]; the float fields are kept as the exact rationals they denote. *)
Record POI := mkPOI {
  id : Z;
  lat : Q;
  lon : Q;
  poi_type : string;
  fee_value : Q;
  jurisdiction : string
}.

(** [self.simulator.optimizer.jurisdictions]: a Python dict from
    jurisdiction tag to list of POIs. *)
Abbreviation jurisdiction_index := (gmap string (list POI)).

(** ** Python's [list.sort(key=lambda poi: poi.fee_value, reverse=True)]

    Python's sort is stable, also with [reverse=True]: elements with equal
    keys keep their original order.  Modelled as a stable insertion sort:
    [insert_desc p l] puts [p] after the elements of [l] with a strictly
    larger key and before the first one whose key is not larger. *)
Fixpoint insert_desc (p : POI) (l : list POI) : list POI :=
  match l with
  | [] => [p]
  | q :: l' =>
      if Qle_bool (fee_value q) (fee_value p) then p :: q :: l'
      else q :: insert_desc p l'
  end.

Definition sort_desc (l : list POI) : list POI := fold_right insert_desc [] l.

(** ** [Traveler._high_value_strategy] *)

(** Lines 22-23:
    [jurisdiction_pois = self.simulator.optimizer.jurisdictions.get(starting_point.jurisdiction, [])]
    [available_pois = [poi for poi in jurisdiction_pois if poi.id != starting_point.id]] *)
Definition candidate_pois (jurisdictions : jurisdiction_index) (starting_point : POI)
    : list POI :=
  List.filter (fun poi => negb (Z.eqb (id poi) (id starting_point)))
    (default [] (jurisdictions !! jurisdiction starting_point)).

Section Builder.

(** [self.simulator.optimizer.is_valid_route]: the route validator of the
    simulator, taken as a parameter of the builder. *)
Variable is_valid_route : POI -> list POI -> bool.

(** Lines 29-34: the loop over [available_pois].  [within_cap] is the test
    on [len(test_route)]; the source has [len(test_route) <= 8]. *)
Fixpoint select_pois (within_cap : nat -> bool) (starting_point : POI)
    (selected_pois : list POI) (available : list POI) : list POI :=
  match available with
  | [] => selected_pois
  | poi :: rest =>
      let test_route := selected_pois ++ [poi] in
      if within_cap (length test_route) && is_valid_route starting_point test_route
      then select_pois within_cap starting_point test_route rest
      else select_pois within_cap starting_point selected_pois rest
  end.

Definition max_stops : nat := 8.

Definition high_value_strategy (jurisdictions : jurisdiction_index)
    (starting_point : POI) : list POI :=
  select_pois (fun n => Nat.leb n max_stops) starting_point []
    (sort_desc (candidate_pois jurisdictions starting_point)).

(** The same builder with the 8-stop cap replaced by infinity. *)
Definition high_value_strategy_uncapped (jurisdictions : jurisdiction_index)
    (starting_point : POI) : list POI :=
  select_pois (fun _ => true) starting_point []
    (sort_desc (candidate_pois jurisdictions starting_point)).

(** Cell 4: [for ele in starting_points: paths.append(t._high_value_strategy(ele))] *)
Definition build_paths (jurisdictions : jurisdiction_index)
    (starting_points : list POI) : list (list POI) :=
  map (high_value_strategy jurisdictions) starting_points.

End Builder.

(** ** Collaborators of [tax_inspector_competition] *)

(** Modelled from the spec: the Jurisdiction Index builder
    ([optimizer.jurisdictions], in [tax_inspector_competition], which is not
    in the sources).  Spec 4.2: [build(all_pois)] maps each jurisdiction tag
    to the POIs of that jurisdiction, in dataset order. *)
Definition build_index (all_pois : list POI) : jurisdiction_index :=
  foldl (fun m poi =>
           <[jurisdiction poi := default [] (m !! jurisdiction poi) ++ [poi]]> m)
        ∅ all_pois.

(** No two POIs of a route share an id. *)
Fixpoint ids_distinct (route : list POI) : bool :=
  match route with
  | [] => true
  | p :: rest => negb (existsb (fun q => Z.eqb (id q) (id p)) rest) && ids_distinct rest
  end.

Section Validator.

(** The cumulative travel-time budget the spec leaves open (spec 9): an
    explicit, configurable check, arbitrary here. *)
Variable within_budget : POI -> list POI -> bool.

(** Modelled from the spec: [optimizer.is_valid_route] (in
    [tax_inspector_competition], not in the sources).  Spec 4.3: a route is
    valid while its length does not exceed 8, all its POIs are in the
    starting point's jurisdiction and no POI repeats, plus the configurable
    travel-time budget. *)
Definition is_valid_route_spec (starting_point : POI) (route : list POI) : bool :=
  Nat.leb (length route) max_stops &&
  forallb (fun p => String.eqb (jurisdiction p) (jurisdiction starting_point)) route &&
  ids_distinct route &&
  within_budget starting_point route.

End Validator.

(** ** The builder as the spec describes it (spec 4.4)

    Used to check the refinement claim: the candidate list is every POI of
    the dataset in the starting point's jurisdiction except the starting
    point's own id, sorted by [fee_value] descending with a stable sort, then
    scanned once. *)

Definition fee_desc (p q : POI) : Prop := Qle (fee_value q) (fee_value p).

Definition fee_is (v : Q) (p : POI) : bool := Qeq_bool (fee_value p) v.

(** [sorted] is a stable descending sort of [cands]. *)
Definition stable_desc_sort_of (cands sorted : list POI) : Prop :=
  Permutation cands sorted /\ Sorted fee_desc sorted /\
  forall v, List.filter (fee_is v) sorted = List.filter (fee_is v) cands.

Definition spec_candidates (dataset : list POI) (starting_point : POI) : list POI :=
  List.filter (fun p => negb (Z.eqb (id p) (id starting_point)))
    (List.filter (fun p => String.eqb (jurisdiction p) (jurisdiction starting_point))
       dataset).

(** One candidate: accept iff the tentative route has length at most 8 and
    the validator accepts it. *)
Definition spec_step (valid : POI -> list POI -> bool) (starting_point : POI)
    (accepted : list POI) (candidate : POI) : list POI :=
  let tentative := accepted ++ [candidate] in
  if Nat.leb (length tentative) 8 && valid starting_point tentative
  then tentative else accepted.

Definition spec_route (valid : POI -> list POI -> bool) (dataset : list POI)
    (starting_point : POI) (route : list POI) : Prop :=
  exists sorted,
    stable_desc_sort_of (spec_candidates dataset starting_point) sorted /\
    route = fold_left (spec_step valid starting_point) sorted [].

(** ** Cell 6: flattening [paths] into [flat_data] *)

Module Output.

Definition poi_lat : POI -> Q := lat.
Definition poi_lon : POI -> Q := lon.

(** One dict appended to [flat_data]; the field names are the dict keys. *)
Record row := mk_row {
  route_id : string;
  jurisdiction_id : nat;
  poi_id : Z;
  lat : Q;
  lon : Q
}.

(** [f"R_{poi.jurisdiction}_{route_idx}"] *)
Definition route_tag (j : string) (route_idx : nat) : string :=
  String.append "R_" (String.append j (String.append "_" (pretty route_idx))).

(** Inner loop: [for poi_idx, poi in enumerate(poi_list)], [poi_idx] from
    the given start. *)
Fixpoint flatten_route (route_idx poi_idx : nat) (poi_list : list POI) : list row :=
  match poi_list with
  | [] => []
  | poi :: rest =>
      mk_row (route_tag (jurisdiction poi) route_idx) poi_idx (id poi)
        (poi_lat poi) (poi_lon poi)
        :: flatten_route route_idx (S poi_idx) rest
  end.

(** Outer loop: [for route_idx, poi_list in enumerate(paths)]. *)
Fixpoint flatten_paths (route_idx : nat) (paths : list (list POI)) : list row :=
  match paths with
  | [] => []
  | poi_list :: rest => flatten_route route_idx 0 poi_list ++ flatten_paths (S route_idx) rest
  end.

Definition flat_data (paths : list (list POI)) : list row := flatten_paths 0 paths.

(** Re-grouping the output table by [route_id] (the operation of the spec's
    round-trip property): groups in order of first appearance, rows of a
    group in table order. *)
Fixpoint add_row (r : row) (groups : list (string * list row)) : list (string * list row) :=
  match groups with
  | [] => [(route_id r, [r])]
  | (k, rs) :: rest =>
      if String.eqb k (route_id r) then (k, rs ++ [r]) :: rest
      else (k, rs) :: add_row r rest
  end.

Definition regroup (rows : list row) : list (string * list row) :=
  fold_left (fun groups r => add_row r groups) rows [].

(** Each day's route read back from the table: the stops of a row, and of a
    POI. *)
Definition row_stop (r : row) : Z * Q * Q := (poi_id r, lat r, lon r).
Definition poi_stop (p : POI) : Z * Q * Q := (id p, poi_lat p, poi_lon p).

Definition non_empty (poi_list : list POI) : bool :=
  match poi_list with [] => false | _ => true end.

(** All POIs of a route carry the jurisdiction of its first POI. *)
Definition single_jurisdiction (poi_list : list POI) : bool :=
  match poi_list with
  | [] => true
  | poi :: rest => forallb (fun q => String.eqb (jurisdiction q) (jurisdiction poi)) rest
  end.

(** The groups the table of [paths] (days numbered from [route_idx]) splits
    into: one per non-empty day, keyed by the tag of its first POI. *)
Fixpoint route_groups (route_idx : nat) (paths : list (list POI))
    : list (string * list row) :=
  match paths with
  | [] => []
  | [] :: rest => route_groups (S route_idx) rest
  | (poi :: pois) :: rest =>
      (route_tag (jurisdiction poi) route_idx, flatten_route route_idx 0 (poi :: pois))
        :: route_groups (S route_idx) rest
  end.

(** The table as the spec lays it out: one row per (day, stop) pair, days
    in order and each day's stops in route order, a row holding the route
    tag of its POI's jurisdiction and its day, the stop index, the POI id
    and its coordinates. *)
Definition spec_table (paths : list (list POI)) : list row :=
  concat (imap (fun route_idx poi_list =>
    imap (fun poi_idx poi =>
      mk_row (route_tag (jurisdiction poi) route_idx) poi_idx (id poi)
        (poi_lat poi) (poi_lon poi)) poi_list) paths).

Fixpoint no_underscore (s : string) : Prop :=
  match s with
  | EmptyString => True
  | String c s' => c <> "_"%char /\ no_underscore s'
  end.

End Output.

(** ** Geo-Distance Model *)

Module GeoDistance.

Import Stdlib.Reals.Reals Stdlib.micromega.Lra.
Local Open Scope R_scope.

(** Modelled from the spec: the Geo-Distance Model of
    [tax_inspector_competition] (not in the sources; described in the
    README, "Routing", and spec 4.1): Haversine great-circle distance on a
    sphere of radius 6371 km, inputs in decimal degrees, converted to a
    walking time at 5 km/h and multiplied by the correction factor 2.
    Computed over the reals. *)
Definition earth_radius_km : R := 6371.
Definition walking_speed_kmh : R := 5.
Definition correction_factor : R := 2.

Definition to_radians (deg : R) : R := deg * PI / 180.

Definition haversine_km (lat1 lon1 lat2 lon2 : R) : R :=
  let dlat := to_radians (lat2 - lat1) in
  let dlon := to_radians (lon2 - lon1) in
  let a := Rsqr (sin (dlat / 2))
           + cos (to_radians lat1) * cos (to_radians lat2) * Rsqr (sin (dlon / 2)) in
  2 * earth_radius_km * asin (sqrt a).

Definition travel_time (lat1 lon1 lat2 lon2 : R) : R :=
  haversine_km lat1 lon1 lat2 lon2 / walking_speed_kmh * correction_factor.

End GeoDistance.

(** ** Data of the notebook run (cells 4 and 8) *)

Module Day1.

(** [starting_points[0]]: day 1, in jurisdiction J5. *)
Definition start : POI :=
  mkPOI 9000 (418907406 # 10000000) (124773952 # 10000000) "starting_point" 0 "J5".

(** The four J5 POIs of the spec's example, as printed in [paths]. *)
Definition swimming_pool : POI :=
  mkPOI 5232181090 (4189043045043945 # 100000000000000) (1243865585327148 # 100000000000000)
    "swimming_pool" (2403356905639248 # 10000000000000) "J5".
Definition sports_centre : POI :=
  mkPOI 11208102698 (4188479232788086 # 100000000000000) (1247138786315918 # 100000000000000)
    "sports_centre" (2280957878683532 # 10000000000000) "J5".
Definition bakery : POI :=
  mkPOI 4224427195 (4188856506347656 # 100000000000000) (1247531795501709 # 100000000000000)
    "bakery" (17100638854344817 # 100000000000000) "J5".
Definition hairdresser : POI :=
  mkPOI 10248418330 (4189698791503906 # 100000000000000) (1247434425354004 # 100000000000000)
    "hairdresser" (13923176675426865 # 100000000000000) "J5".

Definition pool : list POI := [swimming_pool; sports_centre; bakery; hairdresser].

End Day1.

Module Day2.

(** [starting_points[1]]: day 2, in jurisdiction J6. *)
Definition start : POI :=
  mkPOI 9001 (419023265 # 10000000) (124988301 # 10000000) "starting_point" 0 "J6".

End Day2.

(** ** Runs of the selection loop

    [accepted_chain valid within_cap sp acc s]: starting from [acc], each next
    POI of [s] passes both tests of lines 32-33 when appended. *)
Fixpoint accepted_chain (valid : POI -> list POI -> bool) (within_cap : nat -> bool)
    (starting_point : POI) (acc s : list POI) : Prop :=
  match s with
  | [] => True
  | poi :: rest =>
      within_cap (length (acc ++ [poi])) && valid starting_point (acc ++ [poi]) = true /\
      accepted_chain valid within_cap starting_point (acc ++ [poi]) rest
  end.

(** * Proofs *)

(** ** The stable descending sort *)

Lemma fee_desc_trans : Transitive fee_desc.
Proof. intros p q r Hpq Hqr. unfold fee_desc in *. eapply Qle_trans; eauto. Qed.

Lemma insert_desc_perm (p : POI) (l : list POI) :
  Permutation (p :: l) (insert_desc p l).
Proof.
  induction l as [|q l IH]; simpl; [reflexivity|].
  destruct (Qle_bool (fee_value q) (fee_value p)); [reflexivity|].
  rewrite <- IH. constructor.
Qed.

Lemma sort_desc_perm (l : list POI) : Permutation l (sort_desc l).
Proof.
  induction l as [|p l IH]; simpl; [reflexivity|].
  rewrite <- insert_desc_perm. by constructor.
Qed.

Lemma insert_desc_sorted (p : POI) (l : list POI) :
  Sorted fee_desc l -> Sorted fee_desc (insert_desc p l).
Proof.
  induction l as [|q l IH]; simpl; intros Hs; [repeat constructor|].
  destruct (Qle_bool (fee_value q) (fee_value p)) eqn:Hqp.
  - constructor; [exact Hs|]. constructor. apply Qle_bool_iff. exact Hqp.
  - assert (Hpq : fee_desc q p).
    { unfold fee_desc. apply Qlt_le_weak, Qnot_le_lt.
      intros H. apply Qle_bool_iff in H. congruence. }
    apply Sorted_inv in Hs as [Hs Hhd].
    constructor; [by apply IH|].
    destruct l as [|r l]; simpl; [by constructor|].
    inversion Hhd; subst.
    destruct (Qle_bool (fee_value r) (fee_value p)); by constructor.
Qed.

Lemma sort_desc_sorted (l : list POI) : Sorted fee_desc (sort_desc l).
Proof. induction l; simpl; [constructor|]. by apply insert_desc_sorted. Qed.

Lemma insert_desc_stable (v : Q) (p : POI) (l : list POI) :
  List.filter (fee_is v) (insert_desc p l) = List.filter (fee_is v) (p :: l).
Proof.
  induction l as [|q l IH]; simpl; [done|].
  destruct (Qle_bool (fee_value q) (fee_value p)) eqn:Hqp; [done|].
  simpl. rewrite IH. simpl.
  unfold fee_is. destruct (Qeq_bool (fee_value p) v) eqn:Hp,
    (Qeq_bool (fee_value q) v) eqn:Hq; try done.
  exfalso. apply Qeq_bool_iff in Hp, Hq.
  assert (H : Qle (fee_value q) (fee_value p)) by (rewrite Hp, Hq; apply Qle_refl).
  apply Qle_bool_iff in H. congruence.
Qed.

Lemma sort_desc_stable (v : Q) (l : list POI) :
  List.filter (fee_is v) (sort_desc l) = List.filter (fee_is v) l.
Proof.
  induction l as [|p l IH]; simpl; [done|].
  rewrite insert_desc_stable. simpl. by rewrite IH.
Qed.

Lemma sort_desc_spec (l : list POI) : stable_desc_sort_of l (sort_desc l).
Proof.
  split; [apply sort_desc_perm|]. split; [apply sort_desc_sorted|].
  intros v. apply sort_desc_stable.
Qed.

(** A stable descending sort is unique. *)
Lemma stable_desc_sort_unique (s1 s2 : list POI) :
  Permutation s1 s2 -> Sorted fee_desc s1 -> Sorted fee_desc s2 ->
  (forall v, List.filter (fee_is v) s1 = List.filter (fee_is v) s2) ->
  s1 = s2.
Proof.
  revert s2. induction s1 as [|x t1 IH]; intros s2 Hperm Hs1 Hs2 Hf.
  { symmetry. by apply Permutation_nil. }
  destruct s2 as [|y t2].
  { symmetry in Hperm. apply Permutation_nil in Hperm. discriminate. }
  apply Sorted_StronglySorted in Hs1, Hs2; try exact fee_desc_trans.
  assert (Hxy : Qeq (fee_value x) (fee_value y)).
  { apply Qle_antisym.
    - assert (Hx : In x (y :: t2)) by (eapply Permutation_in; [exact Hperm|left; done]).
      destruct Hx as [->|Hx]; [apply Qle_refl|].
      apply StronglySorted_inv in Hs2 as [_ Hall]. rewrite List.Forall_forall in Hall.
      exact (Hall x Hx).
    - assert (Hy : In y (x :: t1)) by (eapply Permutation_in; [symmetry; exact Hperm|left; done]).
      destruct Hy as [->|Hy]; [apply Qle_refl|].
      apply StronglySorted_inv in Hs1 as [_ Hall]. rewrite List.Forall_forall in Hall.
      exact (Hall y Hy). }
  assert (Hxx : fee_is (fee_value x) x = true) by (apply Qeq_bool_iff; apply Qeq_refl).
  assert (Hyx : fee_is (fee_value x) y = true) by (apply Qeq_bool_iff; symmetry; exact Hxy).
  pose proof (Hf (fee_value x)) as Hfx. simpl in Hfx. rewrite Hxx, Hyx in Hfx.
  injection Hfx as <- _.
  f_equal. apply IH.
  - by apply Permutation_cons_inv in Hperm.
  - apply StronglySorted_Sorted. by apply StronglySorted_inv in Hs1 as [? _].
  - apply StronglySorted_Sorted. by apply StronglySorted_inv in Hs2 as [? _].
  - intros v. pose proof (Hf v) as Hv. simpl in Hv.
    destruct (fee_is v x); [injection Hv as Hv|]; exact Hv.
Qed.

(** ** The Jurisdiction Index and the candidate list *)

Lemma build_index_lookup_from (ds : list POI) (m : jurisdiction_index) (j : string) :
  default [] (foldl (fun m poi =>
           <[jurisdiction poi := default [] (m !! jurisdiction poi) ++ [poi]]> m) m ds !! j)
  = default [] (m !! j) ++ List.filter (fun p => String.eqb (jurisdiction p) j) ds.
Proof.
  revert m. induction ds as [|p ds IH]; intros m; simpl.
  - by rewrite app_nil_r.
  - rewrite IH. destruct (String.eqb_spec (jurisdiction p) j) as [<-|Hne].
    + rewrite lookup_insert_eq. simpl. by rewrite <- app_assoc.
    + by rewrite lookup_insert_ne by done.
Qed.

Lemma build_index_lookup (ds : list POI) (j : string) :
  default [] (build_index ds !! j)
  = List.filter (fun p => String.eqb (jurisdiction p) j) ds.
Proof. unfold build_index. by rewrite build_index_lookup_from, lookup_empty. Qed.

Lemma candidate_pois_build_index (ds : list POI) (sp : POI) :
  candidate_pois (build_index ds) sp = spec_candidates ds sp.
Proof. unfold candidate_pois, spec_candidates. by rewrite build_index_lookup. Qed.

(** ** The selection loop *)

Section Selection.

Variable is_valid_route : POI -> list POI -> bool.

Lemma select_pois_capped_fold (sp : POI) (l acc : list POI) :
  select_pois is_valid_route (fun n => Nat.leb n max_stops) sp acc l
  = fold_left (spec_step is_valid_route sp) l acc.
Proof.
  revert acc. induction l as [|poi l IH]; intros acc; simpl; [done|].
  unfold spec_step. simpl. by destruct (_ && _).
Qed.

(** The loop returns its initial list, or a route that passed both tests. *)
Lemma select_pois_result (wc : nat -> bool) (sp : POI) (acc l : list POI) :
  let r := select_pois is_valid_route wc sp acc l in
  r = acc \/ (wc (length r) = true /\ is_valid_route sp r = true).
Proof.
  revert acc. induction l as [|poi l IH]; intros acc; simpl; [by left|].
  destruct (wc (length (acc ++ [poi])) && is_valid_route sp (acc ++ [poi])) eqn:Hok.
  - destruct (IH (acc ++ [poi])) as [->|Hr]; [|by right].
    right. by apply andb_true_iff in Hok.
  - apply IH.
Qed.

(** The loop only appends candidates, in their order. *)
Lemma select_pois_sublist (wc : nat -> bool) (sp : POI) (acc l : list POI) :
  exists s, select_pois is_valid_route wc sp acc l = acc ++ s /\ s `sublist_of` l.
Proof.
  revert acc. induction l as [|poi l IH]; intros acc; simpl.
  { exists []. split; [by rewrite app_nil_r|constructor]. }
  destruct (_ && _).
  - destruct (IH (acc ++ [poi])) as [s [Hs Hsub]].
    exists (poi :: s). rewrite Hs, <- app_assoc. split; [done|by constructor].
  - destruct (IH acc) as [s [Hs Hsub]]. exists s. split; [done|by constructor].
Qed.

(** Either both runs hold the same list, or the capped run is full and a
    prefix of the uncapped one. *)
Definition cap_related (acc_c acc_u : list POI) : Prop :=
  acc_c = acc_u \/ ((max_stops <= length acc_c)%nat /\ exists s, acc_u = acc_c ++ s).

Lemma select_pois_cap_related (sp : POI) (l acc_c acc_u : list POI) :
  cap_related acc_c acc_u ->
  cap_related (select_pois is_valid_route (fun n => Nat.leb n max_stops) sp acc_c l)
              (select_pois is_valid_route (fun _ => true) sp acc_u l).
Proof.
  revert acc_c acc_u. induction l as [|poi l IH]; intros acc_c acc_u Hrel; simpl; [done|].
  destruct Hrel as [<-|[Hfull [s ->]]].
  - destruct (Nat.leb_spec (length (acc_c ++ [poi])) max_stops) as [Hle|Hgt]; simpl.
    + destruct (is_valid_route sp (acc_c ++ [poi])); apply IH; by left.
    + rewrite length_app in Hgt. simpl in Hgt.
      destruct (is_valid_route sp (acc_c ++ [poi])); apply IH; right;
        (split; [unfold max_stops in *; lia|]).
      * exists [poi]. done.
      * exists []. by rewrite app_nil_r.
  - assert (Hno : Nat.leb (length (acc_c ++ [poi])) max_stops = false).
    { apply Nat.leb_gt. rewrite length_app. simpl. unfold max_stops in *. lia. }
    rewrite Hno. simpl.
    destruct (is_valid_route sp ((acc_c ++ s) ++ [poi])); apply IH; right;
      (split; [done|]).
    + exists (s ++ [poi]). by rewrite app_assoc.
    + by exists s.
Qed.

End Selection.

Lemma ids_distinct_NoDup (route : list POI) :
  ids_distinct route = true -> NoDup (map id route).
Proof.
  induction route as [|p route IH]; simpl; intros H; [constructor|].
  apply andb_true_iff in H as [Hn Hd].
  constructor; [|by apply IH].
  intros Hin. apply list_elem_of_In, in_map_iff in Hin as [q [Hq Hin]].
  apply negb_true_iff in Hn.
  enough (E : existsb (fun q => Z.eqb (id q) (id p)) route = true) by congruence.
  apply existsb_exists. exists q. split; [done|]. by apply Z.eqb_eq.
Qed.

Lemma StronglySorted_sublist {A} (R : A -> A -> Prop) (l1 l2 : list A) :
  l1 `sublist_of` l2 -> StronglySorted R l2 -> StronglySorted R l1.
Proof.
  induction 1 as [|x l1 l2 Hsub IH|x l1 l2 Hsub IH]; intros Hs; [constructor| |].
  - apply StronglySorted_inv in Hs as [Hs Hall]. constructor; [by apply IH|].
    rewrite List.Forall_forall in Hall |- *. intros y Hy. apply Hall.
    apply list_elem_of_In. apply list_elem_of_In in Hy. by eapply elem_of_sublist.
  - apply StronglySorted_inv in Hs as [Hs _]. by apply IH.
Qed.

Lemma StronglySorted_lookup {A} (R : A -> A -> Prop) (l : list A) (i j : nat) (x y : A) :
  StronglySorted R l -> (i < j)%nat -> l !! i = Some x -> l !! j = Some y -> R x y.
Proof.
  revert i j. induction l as [|a l IH]; intros i j Hs Hij Hi Hj; [done|].
  apply StronglySorted_inv in Hs as [Hs Hall].
  destruct i as [|i], j as [|j]; simpl in *; try lia.
  - injection Hi as <-. rewrite List.Forall_forall in Hall. apply Hall.
    apply list_elem_of_In. exact (list_elem_of_lookup_2 _ _ _ Hj).
  - apply (IH i j); [exact Hs|lia|exact Hi|exact Hj].
Qed.

(** ** Claims on the greedy route builder *)

(** C1: for every dataset (indexed by jurisdiction) and starting point, the
    builder returns exactly the route of the spec's procedure: the POIs of
    the starting point's jurisdiction minus its own id, stably sorted by
    [fee_value] descending, scanned once, accepting a candidate iff the
    tentative route has at most 8 POIs and the validator accepts it.  That
    route exists and is unique. *)
Theorem high_value_strategy_refines_spec (valid : POI -> list POI -> bool)
    (dataset : list POI) (starting_point : POI) :
  spec_route valid dataset starting_point
    (high_value_strategy valid (build_index dataset) starting_point) /\
  forall route, spec_route valid dataset starting_point route ->
    route = high_value_strategy valid (build_index dataset) starting_point.
Proof.
  unfold high_value_strategy.
  rewrite candidate_pois_build_index, select_pois_capped_fold.
  split.
  - exists (sort_desc (spec_candidates dataset starting_point)).
    split; [apply sort_desc_spec|done].
  - intros route [sorted [[Hp [Hs Hf]] ->]].
    f_equal. apply stable_desc_sort_unique.
    + rewrite <- Hp. apply sort_desc_perm.
    + exact Hs.
    + apply sort_desc_sorted.
    + intros v. by rewrite Hf, sort_desc_stable.
Qed.

(** Routes built with the validator of spec 4.3. *)
Lemma spec_validated_route_props
    (within_budget : POI -> list POI -> bool)
    (jurisdictions : jurisdiction_index) (starting_point : POI) :
  let route := high_value_strategy (is_valid_route_spec within_budget)
                 jurisdictions starting_point in
  (length route <= 8)%nat /\ NoDup (map id route) /\
  Forall (fun p => jurisdiction p = jurisdiction starting_point) route.
Proof.
  unfold high_value_strategy.
  match goal with |- context [select_pois ?v ?wc ?sp [] ?l] =>
    destruct (select_pois_result v wc sp [] l) as [->|[Hc Hv]] end;
    [simpl; split; [lia|split; constructor]|].
  apply Nat.leb_le in Hc. unfold max_stops in Hc.
  split; [exact Hc|].
  unfold is_valid_route_spec in Hv.
  apply andb_true_iff in Hv as [Hv _]. apply andb_true_iff in Hv as [Hv Hd].
  apply andb_true_iff in Hv as [_ Hj].
  split; [by apply ids_distinct_NoDup|].
  apply List.Forall_forall. intros p Hp.
  rewrite forallb_forall in Hj. apply String.eqb_eq. by apply Hj.
Qed.

(** C2: with the validator of spec 4.3 (whatever travel-time budget it is
    configured with), every route the builder returns has at most 8 POIs, no
    two with the same id, all in the starting point's jurisdiction. *)
Theorem high_value_strategy_route_invariants
    (within_budget : POI -> list POI -> bool)
    (jurisdictions : jurisdiction_index) (starting_point : POI) :
  let route := high_value_strategy (is_valid_route_spec within_budget)
                 jurisdictions starting_point in
  (length route <= 8)%nat /\ NoDup (map id route) /\
  Forall (fun p => jurisdiction p = jurisdiction starting_point) route.
Proof. apply spec_validated_route_props. Qed.

(** C5: the builder is deterministic.  The candidate sort is stable: for
    every fee value, the candidates carrying it appear in the sorted list in
    their dataset order; and the route is the single scan of that sorted
    list, a function of the dataset and the starting point only. *)
Theorem high_value_strategy_deterministic_stable (valid : POI -> list POI -> bool)
    (dataset : list POI) (starting_point : POI) :
  (forall v : Q,
     List.filter (fee_is v) (sort_desc (spec_candidates dataset starting_point))
     = List.filter (fee_is v) (spec_candidates dataset starting_point)) /\
  high_value_strategy valid (build_index dataset) starting_point
  = fold_left (spec_step valid starting_point)
      (sort_desc (spec_candidates dataset starting_point)) [].
Proof.
  split; [intros v; apply sort_desc_stable|].
  unfold high_value_strategy.
  by rewrite candidate_pois_build_index, select_pois_capped_fold.
Qed.

(** C6: for any validator, the returned route is ordered by non-increasing
    [fee_value]: position [i < j] holds a fee at least the one at [j]. *)
Theorem high_value_strategy_fee_non_increasing (valid : POI -> list POI -> bool)
    (jurisdictions : jurisdiction_index) (starting_point : POI)
    (i j : nat) (p q : POI) :
  (i < j)%nat ->
  high_value_strategy valid jurisdictions starting_point !! i = Some p ->
  high_value_strategy valid jurisdictions starting_point !! j = Some q ->
  Qle (fee_value q) (fee_value p).
Proof.
  intros Hij Hi Hj. unfold high_value_strategy in *.
  destruct (select_pois_sublist valid (fun n => Nat.leb n max_stops) starting_point []
              (sort_desc (candidate_pois jurisdictions starting_point))) as [s [Hs Hsub]].
  rewrite Hs in Hi, Hj. simpl in Hi, Hj.
  apply (StronglySorted_lookup fee_desc s i j p q); try done.
  eapply StronglySorted_sublist; [exact Hsub|].
  apply Sorted_StronglySorted; [exact fee_desc_trans|apply sort_desc_sorted].
Qed.

(** C8: replacing the 8-stop cap by infinity never shrinks the route: the
    uncapped route is the capped one, possibly extended. *)
Theorem high_value_strategy_uncapped_extends (valid : POI -> list POI -> bool)
    (jurisdictions : jurisdiction_index) (starting_point : POI) :
  exists suffix,
    high_value_strategy_uncapped valid jurisdictions starting_point
    = high_value_strategy valid jurisdictions starting_point ++ suffix.
Proof.
  unfold high_value_strategy, high_value_strategy_uncapped.
  destruct (select_pois_cap_related valid starting_point
              (sort_desc (candidate_pois jurisdictions starting_point)) [] [])
    as [->|[_ Hs]]; [by left| |exact Hs].
  exists []. by rewrite app_nil_r.
Qed.

Lemma NoDup_of_ids (r : list POI) : NoDup (map id r) -> NoDup r.
Proof.
  induction r as [|p r IH]; simpl; intros H; [constructor|].
  apply NoDup_cons in H as [Hn Hd]. apply NoDup_cons. split; [|by apply IH].
  intros Hin. apply Hn. apply list_elem_of_In, in_map. by apply list_elem_of_In.
Qed.

Lemma Day1_sort_permutations (l : list POI) :
  Permutation l Day1.pool -> sort_desc l = Day1.pool.
Proof.
  intros Hl.
  assert (Hall : Forall (fun l => sort_desc l = Day1.pool) (permutations Day1.pool)).
  { vm_compute. repeat constructor. }
  rewrite List.Forall_forall in Hall. apply Hall.
  apply list_elem_of_In, permutations_Permutation. by symmetry.
Qed.

(** C3: day 1 of the run starts at (41.8907406, 12.4773952) in J5.  When its
    candidate pool is the swimming pool (fee 240.34), the sports centre
    (228.10), the bakery (171.01) and the hairdresser (139.23), in any dataset
    order, and the validator accepts every duplicate-free route drawn from
    them, the builder returns exactly these four, in strictly descending
    [fee_value] order. *)
Theorem high_value_strategy_day1_example (valid : POI -> list POI -> bool)
    (jurisdictions : jurisdiction_index) :
  Permutation (candidate_pois jurisdictions Day1.start) Day1.pool ->
  (forall r, incl r Day1.pool -> NoDup r -> valid Day1.start r = true) ->
  high_value_strategy valid jurisdictions Day1.start
    = [Day1.swimming_pool; Day1.sports_centre; Day1.bakery; Day1.hairdresser] /\
  Qlt (fee_value Day1.sports_centre) (fee_value Day1.swimming_pool) /\
  Qlt (fee_value Day1.bakery) (fee_value Day1.sports_centre) /\
  Qlt (fee_value Day1.hairdresser) (fee_value Day1.bakery).
Proof.
  intros Hpool Hfeas.
  assert (Hv : forall r, incl r Day1.pool -> NoDup (map id r) ->
                         valid Day1.start r = true).
  { intros r Hi Hd. apply Hfeas; [exact Hi|by apply NoDup_of_ids]. }
  split; [|vm_compute; repeat split; reflexivity].
  unfold high_value_strategy. rewrite (Day1_sort_permutations _ Hpool).
  unfold Day1.pool. cbn [select_pois app length].
  rewrite !Hv; try (apply (bool_decide_unpack _); vm_compute; reflexivity);
    try (intros x Hx; unfold Day1.pool; simpl in *; tauto).
  reflexivity.
Qed.

(** C4: when the starting point's jurisdiction is absent from the index, or
    its candidate pool is empty, the builder returns the empty route (it is
    total: no error), and in the multi-day loop that day contributes an empty
    route while the other days get the routes they would get without it. *)
Theorem high_value_strategy_empty_pool (valid : POI -> list POI -> bool)
    (jurisdictions : jurisdiction_index) (before after : list POI)
    (starting_point : POI) :
  jurisdictions !! jurisdiction starting_point = None \/
  candidate_pois jurisdictions starting_point = [] ->
  high_value_strategy valid jurisdictions starting_point = [] /\
  build_paths valid jurisdictions (before ++ starting_point :: after)
  = build_paths valid jurisdictions before ++ [] :: build_paths valid jurisdictions after.
Proof.
  intros Hnone.
  assert (Hc : candidate_pois jurisdictions starting_point = []).
  { destruct Hnone as [Hn|Hc]; [|exact Hc].
    unfold candidate_pois. by rewrite Hn. }
  assert (Hr : high_value_strategy valid jurisdictions starting_point = []).
  { unfold high_value_strategy. by rewrite Hc. }
  split; [exact Hr|].
  unfold build_paths. rewrite map_app. simpl. by rewrite Hr.
Qed.

(** ** Witnesses *)

Lemma high_value_strategy_fee_non_increasing_witness :
  high_value_strategy (fun _ _ => true) (build_index (Day1.start :: Day1.pool)) Day1.start
    !! 0%nat = Some Day1.swimming_pool /\
  high_value_strategy (fun _ _ => true) (build_index (Day1.start :: Day1.pool)) Day1.start
    !! 1%nat = Some Day1.sports_centre /\
  Qle (fee_value Day1.sports_centre) (fee_value Day1.swimming_pool).
Proof.
  assert (H0 : high_value_strategy (fun _ _ => true) (build_index (Day1.start :: Day1.pool))
                 Day1.start !! 0%nat = Some Day1.swimming_pool) by (vm_compute; reflexivity).
  assert (H1 : high_value_strategy (fun _ _ => true) (build_index (Day1.start :: Day1.pool))
                 Day1.start !! 1%nat = Some Day1.sports_centre) by (vm_compute; reflexivity).
  split; [exact H0|]. split; [exact H1|].
  exact (high_value_strategy_fee_non_increasing (fun _ _ => true)
           (build_index (Day1.start :: Day1.pool)) Day1.start 0 1 _ _ (Nat.lt_0_1) H0 H1).
Defined.

Lemma high_value_strategy_day1_example_witness :
  Permutation (candidate_pois (build_index (Day1.start :: Day1.pool)) Day1.start) Day1.pool /\
  high_value_strategy (fun _ _ => true) (build_index (Day1.start :: Day1.pool)) Day1.start
    = [Day1.swimming_pool; Day1.sports_centre; Day1.bakery; Day1.hairdresser].
Proof.
  assert (Hp : Permutation (candidate_pois (build_index (Day1.start :: Day1.pool)) Day1.start)
                 Day1.pool) by (vm_compute; reflexivity).
  split; [exact Hp|].
  exact (proj1 (high_value_strategy_day1_example (fun _ _ => true)
                  (build_index (Day1.start :: Day1.pool)) Hp (fun _ _ _ => eq_refl))).
Defined.

Lemma high_value_strategy_empty_pool_witness :
  let day2 := mkPOI 9001 (419023265 # 10000000) (124988301 # 10000000)
                "starting_point" 0 "J6" in
  build_index Day1.pool !! jurisdiction day2 = None /\
  build_paths (fun _ _ => true) (build_index Day1.pool) ([Day1.start] ++ day2 :: [Day1.start])
  = build_paths (fun _ _ => true) (build_index Day1.pool) [Day1.start]
      ++ [] :: build_paths (fun _ _ => true) (build_index Day1.pool) [Day1.start].
Proof.
  intros day2.
  assert (Hn : build_index Day1.pool !! jurisdiction day2 = None) by (vm_compute; reflexivity).
  split; [exact Hn|].
  exact (proj2 (high_value_strategy_empty_pool (fun _ _ => true) (build_index Day1.pool)
                  [Day1.start] [Day1.start] day2 (or_introl Hn))).
Defined.

(** ** The output table *)

Module OutputFacts.

Import Output.

Lemma pretty_N_char_not_underscore (x : N) : pretty_N_char x <> "_"%char.
Proof. intros H. unfold pretty_N_char in H. repeat case_match; discriminate. Qed.

Lemma pretty_N_go_no_underscore (x : N) (s : string) :
  no_underscore s -> no_underscore (pretty_N_go x s).
Proof.
  revert s. induction (N.lt_wf_0 x) as [x _ IH]; intros s Hs.
  destruct (decide (x = 0%N)) as [->|Hx]; [by rewrite pretty_N_go_0|].
  rewrite pretty_N_go_step by lia.
  apply IH; [apply N.div_lt; lia|].
  simpl. split; [apply pretty_N_char_not_underscore|exact Hs].
Qed.

Lemma pretty_nat_no_underscore (n : nat) : no_underscore (pretty n).
Proof.
  cbv [pretty pretty_nat pretty_N]. case_decide.
  - simpl. split; [discriminate|done].
  - by apply pretty_N_go_no_underscore.
Qed.

Lemma no_underscore_append_underscore (x y : string) :
  ~ no_underscore (String.append x (String "_" y)).
Proof.
  induction x as [|c x IH]; simpl; [intros [H _]; done|].
  intros [_ H]. by apply IH.
Qed.

Lemma append_underscore_inj (a b p q : string) :
  no_underscore p -> no_underscore q ->
  String.append a (String "_" p) = String.append b (String "_" q) -> p = q.
Proof.
  revert b. induction a as [|c a IH]; intros b Hp Hq Heq; destruct b as [|d b]; simpl in Heq.
  - by injection Heq.
  - injection Heq as <- ->. by apply no_underscore_append_underscore in Hp.
  - injection Heq as -> <-. by apply no_underscore_append_underscore in Hq.
  - injection Heq as _ Heq. by apply (IH b).
Qed.

(** Two route tags with different day indices differ, whatever the
    jurisdiction tags (which may themselves contain underscores). *)
Lemma route_tag_idx_inj (j1 j2 : string) (i1 i2 : nat) :
  route_tag j1 i1 = route_tag j2 i2 -> i1 = i2.
Proof.
  unfold route_tag. simpl. intros Heq. injection Heq as Heq.
  apply (inj pretty).
  apply (append_underscore_inj j1 j2); [apply pretty_nat_no_underscore..|exact Heq].
Qed.

Definition regroup_step (groups : list (string * list row)) (r : row) :=
  add_row r groups.

Lemma add_row_fresh (r : row) (gs : list (string * list row)) :
  (forall g, In g gs -> fst g <> route_id r) ->
  add_row r gs = gs ++ [(route_id r, [r])].
Proof.
  induction gs as [|[k rs] gs IH]; intros Hfresh; simpl; [done|].
  destruct (String.eqb_spec k (route_id r)) as [Hk|Hk].
  - exfalso. apply (Hfresh (k, rs)); [by left|done].
  - f_equal. apply IH. intros g Hg. apply Hfresh. by right.
Qed.

Lemma add_row_last (r : row) (gs : list (string * list row)) (rs : list row) :
  (forall g, In g gs -> fst g <> route_id r) ->
  add_row r (gs ++ [(route_id r, rs)]) = gs ++ [(route_id r, rs ++ [r])].
Proof.
  induction gs as [|[k rs'] gs IH]; intros Hfresh; simpl.
  - by rewrite String.eqb_refl.
  - destruct (String.eqb_spec k (route_id r)) as [Hk|Hk].
    + exfalso. apply (Hfresh (k, rs')); [by left|done].
    + f_equal. apply IH. intros g Hg. apply Hfresh. by right.
Qed.

(** The rows of one day all land in that day's group, in order. *)
Lemma fold_flatten_route (route_idx n : nat) (j : string) (pois : list POI)
    (gs : list (string * list row)) (acc : list row) :
  Forall (fun p => jurisdiction p = j) pois ->
  (forall g, In g gs -> fst g <> route_tag j route_idx) ->
  fold_left regroup_step (flatten_route route_idx n pois) (gs ++ [(route_tag j route_idx, acc)])
  = gs ++ [(route_tag j route_idx, acc ++ flatten_route route_idx n pois)].
Proof.
  revert n acc. induction pois as [|p pois IH]; intros n acc Hj Hfresh; simpl.
  - by rewrite app_nil_r.
  - apply Forall_cons_iff in Hj as [Hp Hj]. subst j.
    cbn [fold_left]. unfold regroup_step at 2.
    match goal with |- context [add_row ?r _] =>
      pose proof (add_row_last r gs acc) as Hadd end.
    simpl in Hadd. rewrite Hadd by done.
    rewrite IH by done. by rewrite <- app_assoc.
Qed.

Lemma fold_flatten_paths (paths : list (list POI)) (k : nat) (gs : list (string * list row)) :
  forallb single_jurisdiction paths = true ->
  (forall g, In g gs -> exists j i, fst g = route_tag j i /\ (i < k)%nat) ->
  fold_left regroup_step (flatten_paths k paths) gs = gs ++ route_groups k paths.
Proof.
  revert k gs. induction paths as [|r paths IH]; intros k gs Hs Hgs; simpl.
  { by rewrite app_nil_r. }
  apply andb_true_iff in Hs as [Hr Hs].
  rewrite fold_left_app.
  destruct r as [|p ps]; simpl.
  - apply IH; [done|]. intros g Hg. destruct (Hgs g Hg) as (j & i & ? & ?).
    exists j, i. split; [done|lia].
  - assert (Hfresh : forall g, In g gs -> fst g <> route_tag (jurisdiction p) k).
    { intros g Hg Heq. destruct (Hgs g Hg) as (j & i & Hgi & Hi).
      rewrite Hgi in Heq. apply route_tag_idx_inj in Heq. lia. }
    change (regroup_step gs ?r) with (add_row r gs). rewrite add_row_fresh by exact Hfresh. simpl.
    rewrite (fold_flatten_route k 1 (jurisdiction p) ps gs [_]); [|..|exact Hfresh].
    + rewrite IH; [by rewrite <- app_assoc|done|].
      intros g Hg. apply in_app_or in Hg as [Hg|[<-|[]]].
      * destruct (Hgs g Hg) as (j & i & ? & ?). exists j, i. split; [done|lia].
      * exists (jurisdiction p), k. split; [done|lia].
    + apply List.Forall_forall. intros q Hq. simpl in Hr. rewrite forallb_forall in Hr.
      apply String.eqb_eq, Hr, Hq.
Qed.

Lemma regroup_flat_data (paths : list (list POI)) :
  forallb single_jurisdiction paths = true ->
  regroup (flat_data paths) = route_groups 0 paths.
Proof.
  intros Hs. unfold regroup, flat_data.
  apply (fold_flatten_paths paths 0 []); [exact Hs|]. intros g [].
Qed.

Lemma flatten_route_stops (route_idx n : nat) (pois : list POI) :
  map row_stop (flatten_route route_idx n pois) = map poi_stop pois.
Proof. revert n. induction pois as [|p pois IH]; intros n; simpl; [done|]. by rewrite IH. Qed.

Lemma flatten_route_indices (route_idx n : nat) (pois : list POI) :
  map jurisdiction_id (flatten_route route_idx n pois) = seq n (length pois).
Proof. revert n. induction pois as [|p pois IH]; intros n; simpl; [done|]. by rewrite IH. Qed.

Lemma flatten_route_length (route_idx n : nat) (pois : list POI) :
  length (flatten_route route_idx n pois) = length pois.
Proof. revert n. induction pois as [|p pois IH]; intros n; simpl; [done|]. by rewrite IH. Qed.

Lemma route_groups_stops (k : nat) (paths : list (list POI)) :
  forallb non_empty paths = true ->
  map (fun g => map row_stop (snd g)) (route_groups k paths) = map (map poi_stop) paths.
Proof.
  revert k. induction paths as [|[|p ps] paths IH]; intros k Hn; simpl in *; try done.
  f_equal; [by rewrite (flatten_route_stops k 1 ps)|by apply IH].
Qed.

Lemma route_groups_indices (k : nat) (paths : list (list POI)) :
  Forall (fun g => map jurisdiction_id (snd g) = seq 0 (length (snd g))) (route_groups k paths).
Proof.
  revert k. induction paths as [|[|p ps] paths IH]; intros k; simpl; [constructor|apply IH|].
  constructor; [|apply IH]. simpl.
  by rewrite (flatten_route_indices k 1 ps), flatten_route_length.
Qed.

Lemma route_groups_length (k : nat) (paths : list (list POI)) :
  length (route_groups k paths) = length (List.filter non_empty paths).
Proof.
  revert k. induction paths as [|[|p ps] paths IH]; intros k; simpl; [done|apply IH|].
  by rewrite IH.
Qed.

Lemma filter_non_empty_length_lt (paths : list (list POI)) :
  In [] paths -> (length (List.filter non_empty paths) < length paths)%nat.
Proof.
  induction paths as [|r paths IH]; simpl; [done|].
  intros [->|Hin].
  - simpl. pose proof (List.filter_length_le non_empty paths). lia.
  - destruct (non_empty r); simpl; [specialize (IH Hin); lia|].
    pose proof (List.filter_length_le non_empty paths). lia.
Qed.

Lemma flatten_route_imap (route_idx n : nat) (pois : list POI) :
  flatten_route route_idx n pois
  = imap (fun i p => mk_row (route_tag (jurisdiction p) route_idx) (n + i) (id p)
                       (poi_lat p) (poi_lon p)) pois.
Proof.
  revert n. induction pois as [|p pois IH]; intros n; simpl; [done|].
  rewrite IH, Nat.add_0_r. f_equal. apply imap_ext. intros i x _. cbn. f_equal. lia.
Qed.

Lemma flatten_paths_imap (k : nat) (paths : list (list POI)) :
  flatten_paths k paths = concat (imap (fun d r => flatten_route (k + d) 0 r) paths).
Proof.
  revert k. induction paths as [|r paths IH]; intros k; simpl; [done|].
  rewrite IH, Nat.add_0_r. do 2 f_equal. apply imap_ext. intros i x _. cbn. f_equal. lia.
Qed.

Lemma flat_data_spec_table (paths : list (list POI)) :
  flat_data paths = spec_table paths.
Proof.
  unfold flat_data, spec_table. rewrite flatten_paths_imap. f_equal.
  apply imap_ext. intros d r _. simpl. apply flatten_route_imap.
Qed.

Lemma flatten_route_route_ids (route_idx n : nat) (pois : list POI) :
  Forall (fun r => exists p, In p pois /\ route_id r = route_tag (jurisdiction p) route_idx)
    (flatten_route route_idx n pois).
Proof.
  revert n. induction pois as [|p pois IH]; intros n; simpl; constructor.
  - exists p. split; [by left|done].
  - eapply Forall_impl; [apply IH|]. intros r (q & Hq & Hr). exists q. split; [by right|done].
Qed.

Lemma flatten_paths_route_ids (k : nat) (paths : list (list POI)) (r : row) :
  In r (flatten_paths k paths) ->
  exists d pois p, paths !! d = Some pois /\ In p pois /\
    route_id r = route_tag (jurisdiction p) (k + d).
Proof.
  revert k. induction paths as [|pois paths IH]; intros k; simpl; [done|].
  intros Hin. apply in_app_or in Hin as [Hin|Hin].
  - pose proof (flatten_route_route_ids k 0 pois) as H.
    rewrite List.Forall_forall in H. destruct (H r Hin) as (p & Hp & Hr).
    exists 0%nat, pois, p. rewrite Nat.add_0_r. done.
  - destruct (IH (S k) Hin) as (d & pois' & p & Hd & Hp & Hr).
    exists (S d), pois', p. split; [done|]. split; [done|].
    rewrite Hr. f_equal. lia.
Qed.

Lemma flat_data_no_empty_day_rows (paths : list (list POI)) (d : nat) (j : string) :
  paths !! d = Some [] ->
  Forall (fun r => route_id r <> route_tag j d) (flat_data paths).
Proof.
  intros Hd. apply List.Forall_forall. intros r Hin Heq.
  destruct (flatten_paths_route_ids 0 paths r Hin) as (d' & pois & p & Hd' & Hp & Hr).
  rewrite Heq in Hr. apply route_tag_idx_inj in Hr. simpl in Hr. subst d'.
  rewrite Hd in Hd'. injection Hd' as <-. done.
Qed.

Lemma route_groups_keys (k : nat) (paths : list (list POI)) (g : string * list row) :
  In g (route_groups k paths) ->
  exists d p ps, paths !! d = Some (p :: ps) /\ fst g = route_tag (jurisdiction p) (k + d).
Proof.
  revert k. induction paths as [|[|p ps] paths IH]; intros k; simpl; [done| |].
  - intros Hin. destruct (IH (S k) Hin) as (d & q & qs & Hd & Hg).
    exists (S d), q, qs. split; [done|]. rewrite Hg. f_equal. lia.
  - intros [<-|Hin].
    + exists 0%nat, p, ps. simpl. rewrite Nat.add_0_r. done.
    + destruct (IH (S k) Hin) as (d & q & qs & Hd & Hg).
      exists (S d), q, qs. split; [done|]. rewrite Hg. f_equal. lia.
Qed.

Lemma route_groups_no_empty_day (paths : list (list POI)) (d : nat) (j : string) :
  paths !! d = Some [] ->
  Forall (fun g => fst g <> route_tag j d) (route_groups 0 paths).
Proof.
  intros Hd. apply List.Forall_forall. intros g Hin Heq.
  destruct (route_groups_keys 0 paths g Hin) as (d' & p & ps & Hd' & Hg).
  rewrite Heq in Hg. apply route_tag_idx_inj in Hg. simpl in Hg. subst d'.
  rewrite Hd in Hd'. discriminate.
Qed.

Lemma route_groups_stops_filter (k : nat) (paths : list (list POI)) :
  map (fun g => map row_stop (snd g)) (route_groups k paths)
  = map (map poi_stop) (List.filter non_empty paths).
Proof.
  revert k. induction paths as [|[|p ps] paths IH]; intros k; simpl; [done|apply IH|].
  f_equal; [by rewrite (flatten_route_stops k 1 ps)|apply IH].
Qed.

Lemma filter_non_empty_id (paths : list (list POI)) :
  forallb non_empty paths = true -> List.filter non_empty paths = paths.
Proof.
  induction paths as [|r paths IH]; simpl; [done|].
  intros H. apply andb_true_iff in H as [-> H]. by rewrite IH.
Qed.

Lemma filter_non_empty_length_eq (paths : list (list POI)) :
  length (List.filter non_empty paths) = length paths -> forallb non_empty paths = true.
Proof.
  induction paths as [|r paths IH]; simpl; [done|].
  pose proof (List.filter_length_le non_empty paths).
  destruct (non_empty r); simpl; intros H'; [apply IH; lia|lia].
Qed.

End OutputFacts.

Lemma build_paths_single_jurisdiction (within_budget : POI -> list POI -> bool)
    (jurisdictions : jurisdiction_index) (starting_points : list POI) :
  forallb Output.single_jurisdiction
    (build_paths (is_valid_route_spec within_budget) jurisdictions starting_points) = true.
Proof.
  unfold build_paths. apply forallb_forall. intros r Hr.
  apply in_map_iff in Hr as [sp [<- _]].
  pose proof (spec_validated_route_props within_budget jurisdictions sp) as H.
  cbv zeta in H. destruct H as (_ & _ & Hj).
  remember (high_value_strategy (is_valid_route_spec within_budget) jurisdictions sp)
    as route eqn:E.
  destruct route as [|p ps]; [done|]. simpl.
  apply forallb_forall. intros q Hq. apply String.eqb_eq.
  rewrite List.Forall_forall in Hj.
  rewrite (Hj q (or_intror Hq)), (Hj p (or_introl eq_refl)). done.
Qed.

(** ** Claims on the output table *)

(** C7 (amended): flattening writes one row per (day, stop) pair, days in
    order and each day's stops in route order, keyed
    [R_<the POI's jurisdiction>_<day index>], with the stop index (stored
    under the key [jurisdiction_id]), [poi_id], [lat] and [lon]; a day with
    an empty route writes no row. When the POIs of each route share a
    jurisdiction (as the builder's routes do under the validator of spec
    4.3), re-grouping by [route_id] gives one group per non-empty day, in
    day order, holding that day's stops in route order with stop indices
    0, 1, 2, ...; no group stands for an empty day, and the routes are
    reconstructed exactly when every day's route is non-empty. *)
Theorem flat_data_regroup_round_trip (paths : list (list POI)) :
  Output.flat_data paths = Output.spec_table paths /\
  (forall d j, paths !! d = Some [] ->
     Forall (fun r => Output.route_id r <> Output.route_tag j d) (Output.flat_data paths)) /\
  (forallb Output.single_jurisdiction paths = true ->
     Output.regroup (Output.flat_data paths) = Output.route_groups 0 paths /\
     map (fun g => map Output.row_stop (snd g)) (Output.regroup (Output.flat_data paths))
       = map (map Output.poi_stop) (List.filter Output.non_empty paths) /\
     Forall (fun g => map Output.jurisdiction_id (snd g) = seq 0 (length (snd g)))
       (Output.regroup (Output.flat_data paths)) /\
     (forall d j, paths !! d = Some [] ->
        Forall (fun g => fst g <> Output.route_tag j d)
          (Output.regroup (Output.flat_data paths))) /\
     (map (fun g => map Output.row_stop (snd g)) (Output.regroup (Output.flat_data paths))
        = map (map Output.poi_stop) paths
      <-> forallb Output.non_empty paths = true)).
Proof.
  split; [apply OutputFacts.flat_data_spec_table|].
  split; [intros d j; apply OutputFacts.flat_data_no_empty_day_rows|].
  intros Hs. rewrite (OutputFacts.regroup_flat_data paths Hs).
  split; [done|]. split; [apply OutputFacts.route_groups_stops_filter|].
  split; [apply OutputFacts.route_groups_indices|].
  split; [intros d j; apply OutputFacts.route_groups_no_empty_day|].
  rewrite OutputFacts.route_groups_stops_filter. split.
  - intros Heq. apply (f_equal length) in Heq. rewrite !length_map in Heq.
    by apply OutputFacts.filter_non_empty_length_eq.
  - intros Hn. by rewrite OutputFacts.filter_non_empty_id.
Qed.

(** C7 does not hold as stated: in the notebook's own setting, a day whose
    jurisdiction has no POIs (day 2, J6, against a dataset of J5 POIs) has an
    empty route, writes no row, and the re-grouped table has one route
    where the run built two. *)
Lemma flat_data_regroup_loses_empty_day :
  let paths := build_paths (is_valid_route_spec (fun _ _ => true))
                 (build_index Day1.pool) [Day1.start; Day2.start] in
  map (fun g => map Output.row_stop (snd g)) (Output.regroup (Output.flat_data paths))
  <> map (map Output.poi_stop) paths.
Proof. vm_compute. intros H. discriminate H. Qed.

(** C10: in a run of the builder (validator of spec 4.3), an empty day
    writes no row: re-grouping the table yields one group per non-empty day,
    so when some day is empty there are strictly fewer groups than days and
    the round trip fails. *)
Theorem flat_data_regroup_drops_empty_days (within_budget : POI -> list POI -> bool)
    (jurisdictions : jurisdiction_index) (starting_points : list POI) :
  let paths := build_paths (is_valid_route_spec within_budget) jurisdictions
                 starting_points in
  In [] paths ->
  length (Output.regroup (Output.flat_data paths)) = length (List.filter Output.non_empty paths) /\
  (length (Output.regroup (Output.flat_data paths)) < length paths)%nat /\
  map (fun g => map Output.row_stop (snd g)) (Output.regroup (Output.flat_data paths))
  <> map (map Output.poi_stop) paths.
Proof.
  intros paths Hin.
  rewrite (OutputFacts.regroup_flat_data paths)
    by apply build_paths_single_jurisdiction.
  rewrite OutputFacts.route_groups_length.
  pose proof (OutputFacts.filter_non_empty_length_lt paths Hin) as Hlt.
  split; [done|]. split; [exact Hlt|].
  intros Heq. apply (f_equal length) in Heq. rewrite !length_map in Heq.
  rewrite OutputFacts.route_groups_length in Heq. lia.
Qed.

Lemma flat_data_regroup_round_trip_witness :
  let paths := build_paths (is_valid_route_spec (fun _ _ => true))
                 (build_index Day1.pool) [Day1.start; Day2.start; Day1.start] in
  forallb Output.single_jurisdiction paths = true /\
  map (fun g => map Output.row_stop (snd g)) (Output.regroup (Output.flat_data paths))
    = map (map Output.poi_stop) (List.filter Output.non_empty paths).
Proof.
  intros paths.
  assert (H : forallb Output.single_jurisdiction paths = true) by (vm_compute; reflexivity).
  split; [exact H|].
  exact (proj1 (proj2 (proj2 (proj2 (flat_data_regroup_round_trip paths)) H))).
Defined.

Lemma flat_data_regroup_drops_empty_days_witness :
  let paths := build_paths (is_valid_route_spec (fun _ _ => true))
                 (build_index Day1.pool) [Day1.start; Day2.start] in
  In [] paths /\
  (length (Output.regroup (Output.flat_data paths)) < length paths)%nat.
Proof.
  intros paths.
  assert (Hin : In [] paths) by (vm_compute; right; left; reflexivity).
  split; [exact Hin|].
  exact (proj1 (proj2 (flat_data_regroup_drops_empty_days (fun _ _ => true)
                         (build_index Day1.pool) [Day1.start; Day2.start] Hin))).
Defined.

(** ** The Geo-Distance Model *)

Module GeoDistanceFacts.

Import Stdlib.Reals.Reals Stdlib.micromega.Lra.
Import GeoDistance.
Local Open Scope R_scope.

Lemma asin_nonneg (x : R) : 0 <= x -> 0 <= asin x.
Proof.
  intros Hx. pose proof PI_RGT_0. unfold asin.
  destruct (Rle_dec x (-1)); [lra|].
  destruct (Rle_dec 1 x); [lra|].
  assert (Hd : 0 < sqrt (1 - Rsqr x)).
  { apply sqrt_lt_R0. unfold Rsqr. nra. }
  assert (Hq : 0 <= x / sqrt (1 - Rsqr x)).
  { unfold Rdiv. apply Rmult_le_pos; [exact Hx|]. left. by apply Rinv_0_lt_compat. }
  destruct Hq as [Hq|Hq].
  - left. rewrite <- atan_0. by apply atan_increasing.
  - rewrite <- Hq, atan_0. lra.
Qed.

Lemma haversine_km_nonneg (lat1 lon1 lat2 lon2 : R) :
  0 <= haversine_km lat1 lon1 lat2 lon2.
Proof.
  unfold haversine_km, earth_radius_km. cbv zeta.
  pose proof (asin_nonneg _ (sqrt_pos (Rsqr (sin (to_radians (lat2 - lat1) / 2))
    + cos (to_radians lat1) * cos (to_radians lat2) * Rsqr (sin (to_radians (lon2 - lon1) / 2))))).
  lra.
Qed.

Lemma half_angle_swap (x y : R) : to_radians (x - y) / 2 = - (to_radians (y - x) / 2).
Proof. unfold to_radians. field. Qed.

Lemma half_angle_same (x : R) : to_radians (x - x) / 2 = 0.
Proof. unfold to_radians. field. Qed.

Lemma haversine_km_sym (lat1 lon1 lat2 lon2 : R) :
  haversine_km lat1 lon1 lat2 lon2 = haversine_km lat2 lon2 lat1 lon1.
Proof.
  unfold haversine_km. cbv zeta.
  rewrite (half_angle_swap lat2 lat1), (half_angle_swap lon2 lon1), !sin_neg, <- !Rsqr_neg.
  by rewrite (Rmult_comm (cos (to_radians lat1)) (cos (to_radians lat2))).
Qed.

Lemma haversine_km_same (lat lon : R) : haversine_km lat lon lat lon = 0.
Proof.
  unfold haversine_km. cbv zeta.
  rewrite !half_angle_same, sin_0, Rsqr_0, Rmult_0_r, Rplus_0_r, sqrt_0, asin_0.
  lra.
Qed.

(** C9: the Geo-Distance Model (a function of its four coordinates) never
    returns a negative time, is symmetric, and gives 0 between a point and
    itself. *)
Theorem travel_time_nonneg_symmetric_zero (lat1 lon1 lat2 lon2 lat lon : R) :
  0 <= travel_time lat1 lon1 lat2 lon2 /\
  travel_time lat1 lon1 lat2 lon2 = travel_time lat2 lon2 lat1 lon1 /\
  travel_time lat lon lat lon = 0.
Proof.
  unfold travel_time, walking_speed_kmh, correction_factor.
  pose proof (haversine_km_nonneg lat1 lon1 lat2 lon2).
  split; [lra|]. split.
  - by rewrite haversine_km_sym.
  - rewrite haversine_km_same. lra.
Qed.

End GeoDistanceFacts.

(** * Further properties of the notebook code *)

Section MoreSelection.

Variable valid : POI -> list POI -> bool.

Lemma select_pois_chain (wc : nat -> bool) (sp : POI) (acc l : list POI) :
  exists s, select_pois valid wc sp acc l = acc ++ s /\ accepted_chain valid wc sp acc s.
Proof.
  revert acc. induction l as [|poi l IH]; intros acc; simpl.
  { exists []. by rewrite app_nil_r. }
  destruct (wc (length (acc ++ [poi])) && valid sp (acc ++ [poi])) eqn:Hok.
  - destruct (IH (acc ++ [poi])) as [s [Hs Hc]].
    exists (poi :: s). rewrite Hs, <- app_assoc. by split.
  - apply IH.
Qed.

Lemma accepted_chain_take (wc : nat -> bool) (sp : POI) (s acc : list POI) (i : nat) :
  accepted_chain valid wc sp acc s -> (0 < i <= length s)%nat ->
  wc (length (acc ++ take i s)) && valid sp (acc ++ take i s) = true.
Proof.
  revert acc i. induction s as [|x s IH]; intros acc i Hc Hi; simpl in *; [lia|].
  destruct Hc as [Hx Hc].
  destruct i as [|[|i]]; [lia|done|].
  change (take (S (S i)) (x :: s)) with (x :: take (S i) s).
  replace (acc ++ x :: take (S i) s) with ((acc ++ [x]) ++ take (S i) s)
    by by rewrite <- app_assoc.
  apply IH; [exact Hc|lia].
Qed.

Lemma accepted_chain_select (wc : nat -> bool) (sp : POI) (s acc : list POI) :
  accepted_chain valid wc sp acc s -> select_pois valid wc sp acc s = acc ++ s.
Proof.
  revert acc. induction s as [|x s IH]; intros acc Hc; simpl in *.
  - by rewrite app_nil_r.
  - destruct Hc as [Hx Hc]. rewrite Hx, IH by exact Hc. by rewrite <- app_assoc.
Qed.

Lemma select_pois_permissive (sp : POI) (l acc : list POI) :
  (length acc <= max_stops)%nat ->
  select_pois (fun _ _ => true) (fun n => Nat.leb n max_stops) sp acc l
  = acc ++ take (max_stops - length acc) l.
Proof.
  revert acc. induction l as [|x l IH]; intros acc Hacc; simpl.
  { by rewrite take_nil, app_nil_r. }
  rewrite length_app. simpl. rewrite andb_true_r.
  destruct (Nat.leb_spec (length acc + 1) max_stops) as [Hle|Hgt].
  - rewrite IH by (rewrite length_app; simpl; lia). rewrite length_app. simpl.
    replace (max_stops - length acc)%nat with (S (max_stops - (length acc + 1)))
      by lia.
    simpl. by rewrite <- app_assoc.
  - replace (max_stops - length acc)%nat with 0%nat by lia.
    rewrite IH by lia. by replace (max_stops - length acc)%nat with 0%nat by lia.
Qed.

Lemma high_value_strategy_sublist (jurisdictions : jurisdiction_index) (sp : POI) :
  high_value_strategy valid jurisdictions sp
    `sublist_of` sort_desc (candidate_pois jurisdictions sp).
Proof.
  unfold high_value_strategy.
  destruct (select_pois_sublist valid (fun n => Nat.leb n max_stops) sp []
              (sort_desc (candidate_pois jurisdictions sp))) as [s [-> Hs]].
  exact Hs.
Qed.

Lemma high_value_strategy_in_candidates (jurisdictions : jurisdiction_index) (sp p : POI) :
  In p (high_value_strategy valid jurisdictions sp) -> In p (candidate_pois jurisdictions sp).
Proof.
  intros Hp. apply (Permutation_in _ (symmetry (sort_desc_perm _))).
  apply list_elem_of_In. eapply elem_of_sublist; [by apply list_elem_of_In|apply high_value_strategy_sublist].
Qed.

End MoreSelection.

Lemma filter_all {A} (f : A -> bool) (l : list A) :
  (forall x, In x l -> f x = true) -> List.filter f l = l.
Proof.
  induction l as [|x l IH]; intros H; simpl; [done|].
  rewrite (H x (or_introl eq_refl)), IH; [done|]. intros y Hy. apply H. by right.
Qed.

Lemma high_value_strategy_no_start (valid : POI -> list POI -> bool)
    (jurisdictions : jurisdiction_index) (sp p : POI) :
  In p (high_value_strategy valid jurisdictions sp) -> id p <> id sp.
Proof.
  intros Hp. apply high_value_strategy_in_candidates in Hp.
  unfold candidate_pois in Hp. apply filter_In in Hp as [_ H].
  by apply negb_true_iff, Z.eqb_neq in H.
Qed.

Lemma high_value_strategy_length (valid : POI -> list POI -> bool)
    (jurisdictions : jurisdiction_index) (sp : POI) :
  (length (high_value_strategy valid jurisdictions sp) <= 8)%nat.
Proof.
  unfold high_value_strategy.
  match goal with |- context [select_pois ?v ?wc ?s [] ?l] =>
    destruct (select_pois_result v wc s [] l) as [->|[Hc _]] end; [simpl; lia|].
  apply Nat.leb_le in Hc. exact Hc.
Qed.

Lemma high_value_strategy_sorted (valid : POI -> list POI -> bool)
    (jurisdictions : jurisdiction_index) (sp : POI) :
  StronglySorted fee_desc (high_value_strategy valid jurisdictions sp).
Proof.
  eapply StronglySorted_sublist; [apply high_value_strategy_sublist|].
  apply Sorted_StronglySorted; [exact fee_desc_trans|apply sort_desc_sorted].
Qed.

(** ** Extra properties of [Traveler._high_value_strategy] *)

(** The starting point's own id never appears in its route, whatever the
    index holds and whatever the validator accepts (line 23). *)
Theorem high_value_strategy_excludes_starting_point (valid : POI -> list POI -> bool)
    (jurisdictions : jurisdiction_index) (starting_point : POI) :
  Forall (fun p => id p <> id starting_point)
    (high_value_strategy valid jurisdictions starting_point).
Proof.
  apply List.Forall_forall. intros p Hp. by eapply high_value_strategy_no_start.
Qed.

(** The route is an order-preserving selection of the sorted candidates:
    every POI of it is in [jurisdictions.get(starting_point.jurisdiction, [])],
    and it is never longer than that list. *)
Theorem high_value_strategy_selects_from_pool (valid : POI -> list POI -> bool)
    (jurisdictions : jurisdiction_index) (starting_point : POI) :
  let route := high_value_strategy valid jurisdictions starting_point in
  let pool := default [] (jurisdictions !! jurisdiction starting_point) in
  route `sublist_of` sort_desc (candidate_pois jurisdictions starting_point) /\
  Forall (fun p => In p pool) route /\
  (length route <= length pool)%nat.
Proof.
  intros route pool. split; [apply high_value_strategy_sublist|]. split.
  - apply List.Forall_forall. intros p Hp.
    apply high_value_strategy_in_candidates in Hp.
    unfold candidate_pois in Hp. by apply filter_In in Hp as [? _].
  - etrans; [apply sublist_length, high_value_strategy_sublist|].
    rewrite <- (Permutation_length (sort_desc_perm _)).
    unfold candidate_pois. apply List.filter_length_le.
Qed.

(** Whatever the validator, the test [len(test_route) <= 8] bounds every
    route by 8 POIs. *)
Theorem high_value_strategy_at_most_8 (valid : POI -> list POI -> bool)
    (jurisdictions : jurisdiction_index) (starting_point : POI) :
  (length (high_value_strategy valid jurisdictions starting_point) <= 8)%nat.
Proof. apply high_value_strategy_length. Qed.

(** Every non-empty prefix of the returned route was accepted by the
    validator (each was the [test_route] of the step that added its last
    POI). *)
Theorem high_value_strategy_prefixes_valid (valid : POI -> list POI -> bool)
    (jurisdictions : jurisdiction_index) (starting_point : POI) (i : nat) :
  (0 < i <= length (high_value_strategy valid jurisdictions starting_point))%nat ->
  valid starting_point (take i (high_value_strategy valid jurisdictions starting_point))
  = true.
Proof.
  intros Hi. unfold high_value_strategy in *.
  destruct (select_pois_chain valid (fun n => Nat.leb n max_stops) starting_point []
              (sort_desc (candidate_pois jurisdictions starting_point))) as [s [Hs Hc]].
  rewrite Hs in *. simpl in *.
  pose proof (accepted_chain_take valid _ starting_point s [] i Hc Hi) as H.
  simpl in H. by apply andb_true_iff in H as [_ ?].
Qed.

(** With a validator that accepts everything, the route is the 8
    highest-fee candidates (ties in dataset order). *)
Theorem high_value_strategy_permissive (jurisdictions : jurisdiction_index)
    (starting_point : POI) :
  high_value_strategy (fun _ _ => true) jurisdictions starting_point
  = take 8 (sort_desc (candidate_pois jurisdictions starting_point)).
Proof.
  unfold high_value_strategy. rewrite select_pois_permissive; [done|simpl; lia].
Qed.

(** Running the builder again with the starting point's jurisdiction holding
    only its own route gives back that route. *)
Theorem high_value_strategy_rebuild (valid : POI -> list POI -> bool)
    (jurisdictions : jurisdiction_index) (starting_point : POI) :
  high_value_strategy valid
    (<[jurisdiction starting_point := high_value_strategy valid jurisdictions starting_point]>
       jurisdictions) starting_point
  = high_value_strategy valid jurisdictions starting_point.
Proof.
  pose proof (high_value_strategy_no_start valid jurisdictions starting_point) as Hno.
  pose proof (high_value_strategy_sorted valid jurisdictions starting_point) as Hsorted.
  remember (high_value_strategy valid jurisdictions starting_point) as r eqn:Er.
  assert (Hc : accepted_chain valid (fun n => Nat.leb n max_stops) starting_point [] r).
  { destruct (select_pois_chain valid (fun n => Nat.leb n max_stops) starting_point []
                (sort_desc (candidate_pois jurisdictions starting_point))) as [s [Hs Hc]].
    unfold high_value_strategy in Er. rewrite Hs in Er. simpl in Er. by subst. }
  assert (Hcand : candidate_pois (<[jurisdiction starting_point := r]> jurisdictions)
                    starting_point = r).
  { unfold candidate_pois. rewrite lookup_insert_eq. simpl.
    apply filter_all. intros p Hp. apply negb_true_iff, Z.eqb_neq. by apply Hno. }
  assert (Hsort : sort_desc r = r).
  { apply stable_desc_sort_unique.
    - symmetry. apply sort_desc_perm.
    - apply sort_desc_sorted.
    - by apply StronglySorted_Sorted.
    - intros v. apply sort_desc_stable. }
  unfold high_value_strategy at 1. rewrite Hcand, Hsort.
  by apply accepted_chain_select in Hc.
Qed.

Lemma high_value_strategy_prefixes_valid_witness :
  let V := is_valid_route_spec (fun _ _ => true) in
  let J := build_index (Day1.start :: Day1.pool) in
  (0 < 2 <= length (high_value_strategy V J Day1.start))%nat /\
  V Day1.start (take 2 (high_value_strategy V J Day1.start)) = true.
Proof.
  intros V J.
  assert (H : (0 < 2 <= length (high_value_strategy V J Day1.start))%nat)
    by (vm_compute; lia).
  split; [exact H|].
  exact (high_value_strategy_prefixes_valid V J Day1.start 2 H).
Defined.

(** ** Extra properties of the [flat_data] loop *)

Lemma append_underscore_split (a b p q : string) :
  Output.no_underscore p -> Output.no_underscore q ->
  String.append a (String "_" p) = String.append b (String "_" q) -> a = b /\ p = q.
Proof.
  revert b. induction a as [|c a IH]; intros b Hp Hq Heq; destruct b as [|d b]; simpl in Heq.
  - by injection Heq.
  - injection Heq as <- ->. by apply OutputFacts.no_underscore_append_underscore in Hp.
  - injection Heq as -> <-. by apply OutputFacts.no_underscore_append_underscore in Hq.
  - injection Heq as -> Heq. destruct (IH b Hp Hq Heq) as [-> ->]. done.
Qed.

Lemma flatten_paths_stops (k : nat) (paths : list (list POI)) :
  map Output.row_stop (Output.flatten_paths k paths) = concat (map (map Output.poi_stop) paths).
Proof.
  revert k. induction paths as [|r paths IH]; intros k; simpl; [done|].
  by rewrite map_app, OutputFacts.flatten_route_stops, IH.
Qed.

Lemma flatten_paths_indices (k : nat) (paths : list (list POI)) :
  map Output.jurisdiction_id (Output.flatten_paths k paths)
  = concat (map (fun r => seq 0 (length r)) paths).
Proof.
  revert k. induction paths as [|r paths IH]; intros k; simpl; [done|].
  by rewrite map_app, OutputFacts.flatten_route_indices, IH.
Qed.

(** [f"R_{poi.jurisdiction}_{route_idx}"] is injective: a [route_id]
    determines both the jurisdiction tag and the day index, even for tags
    containing underscores. *)
Theorem route_tag_injective (j1 j2 : string) (i1 i2 : nat) :
  Output.route_tag j1 i1 = Output.route_tag j2 i2 <-> j1 = j2 /\ i1 = i2.
Proof.
  split; [|by intros [-> ->]].
  unfold Output.route_tag. simpl. intros Heq. injection Heq as Heq.
  destruct (append_underscore_split j1 j2 (pretty i1) (pretty i2)) as [-> Hp];
    [apply OutputFacts.pretty_nat_no_underscore..|exact Heq|].
  split; [done|]. by apply (inj pretty).
Qed.

(** The table lists the stops ([poi_id], [lat], [lon]) of all days, day
    after day, each day in route order: one row per stop, none for an empty
    day. *)
Theorem flat_data_stops (paths : list (list POI)) :
  map Output.row_stop (Output.flat_data paths) = concat (map (map Output.poi_stop) paths).
Proof. apply flatten_paths_stops. Qed.

(** The column [jurisdiction_id] holds the position of the stop in its day's
    route: 0, 1, ... restarting at every day. *)
Theorem flat_data_jurisdiction_id_column (paths : list (list POI)) :
  map Output.jurisdiction_id (Output.flat_data paths)
  = concat (map (fun r => seq 0 (length r)) paths).
Proof. apply flatten_paths_indices. Qed.

(** A run of the notebook (cells 4 and 6) writes the table as one block of
    rows per starting point, in order; each block has at most 8 rows, and
    the rows of block [d] are exactly the rows of the table whose
    [route_id] carries the day index [d]. *)
Theorem flat_data_build_paths_rows (valid : POI -> list POI -> bool)
    (jurisdictions : jurisdiction_index) (starting_points : list POI) :
  exists blocks : list (list Output.row),
    Output.flat_data (build_paths valid jurisdictions starting_points) = concat blocks /\
    length blocks = length starting_points /\
    (forall d block, blocks !! d = Some block ->
       (length block <= 8)%nat /\
       (forall r, In r (Output.flat_data (build_paths valid jurisdictions starting_points)) ->
          (exists j, Output.route_id r = Output.route_tag j d) <-> In r block)).
Proof.
  set (paths := build_paths valid jurisdictions starting_points).
  set (blocks := imap (fun d r => Output.flatten_route (0 + d) 0 r) paths).
  assert (Htab : Output.flat_data paths = concat blocks)
    by apply OutputFacts.flatten_paths_imap.
  exists blocks. split; [exact Htab|].
  split; [by unfold blocks; rewrite length_imap; unfold paths, build_paths; rewrite length_map|].
  intros d block Hb. pose proof Hb as Hb'.
  apply list_lookup_imap_Some in Hb' as (pois & Hd & ->).
  split.
  - rewrite OutputFacts.flatten_route_length.
    apply list_elem_of_lookup_2, list_elem_of_In in Hd.
    unfold paths, build_paths in Hd. apply in_map_iff in Hd as [sp [<- _]].
    apply high_value_strategy_length.
  - intros r Hr. split.
    + intros [j Hj]. rewrite Htab in Hr. apply in_concat in Hr as (block' & Hblock' & Hr).
      apply list_elem_of_In, list_elem_of_lookup_1 in Hblock' as [d' Hd'].
      pose proof Hd' as Hd''.
      apply list_lookup_imap_Some in Hd'' as (pois' & Hd2 & ->).
      pose proof (OutputFacts.flatten_route_route_ids (0 + d') 0 pois') as Hids.
      rewrite List.Forall_forall in Hids. destruct (Hids r Hr) as (p & _ & Hp).
      rewrite Hj in Hp. apply OutputFacts.route_tag_idx_inj in Hp. simpl in Hp. subst d'.
      rewrite Hd in Hd2. injection Hd2 as <-. exact Hr.
    + intros Hin. pose proof (OutputFacts.flatten_route_route_ids (0 + d) 0 pois) as Hids.
      rewrite List.Forall_forall in Hids. destruct (Hids r Hin) as (p & _ & Hp).
      by exists (jurisdiction p).
Qed.
